(** * Sequential SfM reconstruction engine

    A shallow embedding of [SequentialSfMReconstructionEngine]
    (aliceVision/sfm/pipelines/sequential/sequential_SfM.hpp).

    The header declares the engine's data members, their default member
    initialisers and the inline setters; these are embedded as they are
    written.  The member functions that the header only declares
    ([Process], [FindConnectedViews], [computeImageScore], ...) have their
    bodies in a translation unit that is not part of the sources at hand;
    each of them is modelled from the natural-language specification and
    is marked as such. *)

From stdpp Require Import base gmap sets list sorting strings.
From Stdlib Require Import ZArith QArith Lia.

Open Scope Z_scope.

(** ** Basic types of the header *)

(** [IndexT] and [size_t] identifiers (views, tracks, features). *)
Abbreviation IndexT := nat (only parsing).
(** [Pair] : a pair of view identifiers. *)
Abbreviation Pair := (prod nat nat) (only parsing).
(** [camera::EINTRINSIC] : the enumerators are declared elsewhere; an
    enumeration value is represented by its integer. *)
Abbreviation EINTRINSIC := Z (only parsing).
(** A raw pointer to a data provider, represented by its address. *)
Abbreviation Ptr := nat (only parsing).

(** The [ESfM_Data] flags that the header combines with [|]. *)
Inductive ESfM_Flag :=
  | EXTRINSICS | INTRINSICS | STRUCTURE | OBSERVATIONS | CONTROL_POINTS.

#[global] Instance ESfM_Flag_eq_dec : EqDecision ESfM_Flag.
Proof. solve_decision. Defined.

(** ** The engine's configuration members *)

Module Engine.

(** The data members of the class that hold parameters, with the names of
    the header. *)
Record t := mk {
  _sLoggingFile : string;
  _sfmdataInterFileExtension : string;
  _sfmdataInterFilter : list ESfM_Flag;
  _userInteraction : bool;
  _userInitialImagePair : Pair;
  _camType : EINTRINSIC;
  _minInputTrackLength : Z;
  _minTrackLength : Z;
  _minPointsPerPose : Z;
  _featuresPerView : Ptr;
  _pairwiseMatches : Ptr;
  _pyramidBase : Z;
  _pyramidDepth : Z;
  _pyramidWeights : list Z;
  _pyramidThreshold : Z
}.

(** The constructor.  Members with a default member initialiser take the
    value written in the header; the others ([_userInitialImagePair],
    [_camType], the data providers, the pyramid cache) are set by the
    constructor body and are arguments here. *)
Definition construct (loggingFile : string) (initialPair : Pair)
    (camType : EINTRINSIC) (features matches : Ptr)
    (weights : list Z) (threshold : Z) : t :=
  {| _sLoggingFile := loggingFile;
     _sfmdataInterFileExtension := ".ply";
     _sfmdataInterFilter :=
       [EXTRINSICS; INTRINSICS; STRUCTURE; OBSERVATIONS; CONTROL_POINTS];
     _userInteraction := true;
     _userInitialImagePair := initialPair;
     _camType := camType;
     _minInputTrackLength := 2;
     _minTrackLength := 2;
     _minPointsPerPose := 30;
     _featuresPerView := features;
     _pairwiseMatches := matches;
     _pyramidBase := 2;
     _pyramidDepth := 5;
     _pyramidWeights := weights;
     _pyramidThreshold := threshold |}.

(** *** The inline public setters *)

Definition setFeatures (featuresPerView : Ptr) (e : t) : t :=
  mk (_sLoggingFile e) (_sfmdataInterFileExtension e) (_sfmdataInterFilter e)
     (_userInteraction e) (_userInitialImagePair e) (_camType e)
     (_minInputTrackLength e) (_minTrackLength e) (_minPointsPerPose e)
     featuresPerView (_pairwiseMatches e)
     (_pyramidBase e) (_pyramidDepth e) (_pyramidWeights e) (_pyramidThreshold e).

Definition setMatches (pairwiseMatches : Ptr) (e : t) : t :=
  mk (_sLoggingFile e) (_sfmdataInterFileExtension e) (_sfmdataInterFilter e)
     (_userInteraction e) (_userInitialImagePair e) (_camType e)
     (_minInputTrackLength e) (_minTrackLength e) (_minPointsPerPose e)
     (_featuresPerView e) pairwiseMatches
     (_pyramidBase e) (_pyramidDepth e) (_pyramidWeights e) (_pyramidThreshold e).

Definition setInitialPair (initialPair : Pair) (e : t) : t :=
  mk (_sLoggingFile e) (_sfmdataInterFileExtension e) (_sfmdataInterFilter e)
     (_userInteraction e) initialPair (_camType e)
     (_minInputTrackLength e) (_minTrackLength e) (_minPointsPerPose e)
     (_featuresPerView e) (_pairwiseMatches e)
     (_pyramidBase e) (_pyramidDepth e) (_pyramidWeights e) (_pyramidThreshold e).

Definition SetUnknownCameraType (camType : EINTRINSIC) (e : t) : t :=
  mk (_sLoggingFile e) (_sfmdataInterFileExtension e) (_sfmdataInterFilter e)
     (_userInteraction e) (_userInitialImagePair e) camType
     (_minInputTrackLength e) (_minTrackLength e) (_minPointsPerPose e)
     (_featuresPerView e) (_pairwiseMatches e)
     (_pyramidBase e) (_pyramidDepth e) (_pyramidWeights e) (_pyramidThreshold e).

Definition setSfmdataInterFileExtension (interFileExtension : string) (e : t) : t :=
  mk (_sLoggingFile e) interFileExtension (_sfmdataInterFilter e)
     (_userInteraction e) (_userInitialImagePair e) (_camType e)
     (_minInputTrackLength e) (_minTrackLength e) (_minPointsPerPose e)
     (_featuresPerView e) (_pairwiseMatches e)
     (_pyramidBase e) (_pyramidDepth e) (_pyramidWeights e) (_pyramidThreshold e).

Definition setAllowUserInteraction (v : bool) (e : t) : t :=
  mk (_sLoggingFile e) (_sfmdataInterFileExtension e) (_sfmdataInterFilter e)
     v (_userInitialImagePair e) (_camType e)
     (_minInputTrackLength e) (_minTrackLength e) (_minPointsPerPose e)
     (_featuresPerView e) (_pairwiseMatches e)
     (_pyramidBase e) (_pyramidDepth e) (_pyramidWeights e) (_pyramidThreshold e).

Definition setMinInputTrackLength (minInputTrackLength : Z) (e : t) : t :=
  mk (_sLoggingFile e) (_sfmdataInterFileExtension e) (_sfmdataInterFilter e)
     (_userInteraction e) (_userInitialImagePair e) (_camType e)
     minInputTrackLength (_minTrackLength e) (_minPointsPerPose e)
     (_featuresPerView e) (_pairwiseMatches e)
     (_pyramidBase e) (_pyramidDepth e) (_pyramidWeights e) (_pyramidThreshold e).

Definition setMinTrackLength (minTrackLength : Z) (e : t) : t :=
  mk (_sLoggingFile e) (_sfmdataInterFileExtension e) (_sfmdataInterFilter e)
     (_userInteraction e) (_userInitialImagePair e) (_camType e)
     (_minInputTrackLength e) minTrackLength (_minPointsPerPose e)
     (_featuresPerView e) (_pairwiseMatches e)
     (_pyramidBase e) (_pyramidDepth e) (_pyramidWeights e) (_pyramidThreshold e).

(** A call of one of the inline setters, with its argument. *)
Inductive Setter :=
  | CallSetFeatures (p : Ptr)
  | CallSetMatches (p : Ptr)
  | CallSetInitialPair (p : Pair)
  | CallSetUnknownCameraType (c : EINTRINSIC)
  | CallSetSfmdataInterFileExtension (s : string)
  | CallSetAllowUserInteraction (b : bool)
  | CallSetMinInputTrackLength (n : Z)
  | CallSetMinTrackLength (n : Z).

Definition call (c : Setter) : t → t :=
  match c with
  | CallSetFeatures p => setFeatures p
  | CallSetMatches p => setMatches p
  | CallSetInitialPair p => setInitialPair p
  | CallSetUnknownCameraType c => SetUnknownCameraType c
  | CallSetSfmdataInterFileExtension s => setSfmdataInterFileExtension s
  | CallSetAllowUserInteraction b => setAllowUserInteraction b
  | CallSetMinInputTrackLength n => setMinInputTrackLength n
  | CallSetMinTrackLength n => setMinTrackLength n
  end.

(** The configuration options that the specification lists as recognised;
    the snapshot option is split into the file format and the scene
    fields, which are two members of the class. *)
Inductive ConfigOption :=
  | OptInitialPair
  | OptUnknownCameraType
  | OptMinInputTrackLength
  | OptMinTrackLength
  | OptMinPointsPerPose
  | OptUserInteraction
  | OptSnapshotFormat
  | OptSnapshotFields.

Definition optionValue (o : ConfigOption) : Type :=
  match o with
  | OptInitialPair => Pair
  | OptUnknownCameraType => EINTRINSIC
  | OptMinInputTrackLength => Z
  | OptMinTrackLength => Z
  | OptMinPointsPerPose => Z
  | OptUserInteraction => bool
  | OptSnapshotFormat => string
  | OptSnapshotFields => list ESfM_Flag
  end.

(** The member that stores an option. *)
Definition readOption (o : ConfigOption) (e : t) : optionValue o :=
  match o with
  | OptInitialPair => _userInitialImagePair e
  | OptUnknownCameraType => _camType e
  | OptMinInputTrackLength => _minInputTrackLength e
  | OptMinTrackLength => _minTrackLength e
  | OptMinPointsPerPose => _minPointsPerPose e
  | OptUserInteraction => _userInteraction e
  | OptSnapshotFormat => _sfmdataInterFileExtension e
  | OptSnapshotFields => _sfmdataInterFilter e
  end.

(** An option can be set by the caller when, whatever the engine and the
    wanted value, some setter call stores that value. *)
Definition settable (o : ConfigOption) : Prop :=
  ∀ (e : t) (v : optionValue o), ∃ c : Setter, readOption o (call c e) = v.

(** The options that have a setter. *)
Definition hasSetter (o : ConfigOption) : bool :=
  match o with
  | OptMinPointsPerPose | OptSnapshotFields => false
  | _ => true
  end.

(** The public member functions that are defined out of line and are not
    [const]: their bodies are not in the header. *)
Inductive Method :=
  | CallProcess
  | CallRobustResectionOfImages (viewIds : list nat)
  | CallInitLandmarkTracks
  | CallMakeInitialPair3D (initialPair : Pair).

(** A call through the public interface. *)
Inductive PublicCall :=
  | Inline (c : Setter)
  | OutOfLine (m : Method).

(** The effect of a public call, given the effect of the out-of-line
    member functions. *)
Definition perform (outOfLine : Method → t → t) (c : PublicCall) (e : t) : t :=
  match c with
  | Inline s => call s e
  | OutOfLine m => outOfLine m e
  end.

(** [_pyramidBase] and [_pyramidDepth] are declared [const int]: no member
    function can assign them. *)
Definition respectsConst (outOfLine : Method → t → t) : Prop :=
  ∀ m e, _pyramidBase (outOfLine m e) = _pyramidBase e ∧
         _pyramidDepth (outOfLine m e) = _pyramidDepth e.

End Engine.

(** ** Tracks and the pyramid cache *)

(** Modelled from the spec: the container types [track::TracksMap],
    [track::TracksPerView] and [track::TracksPyramidPerView] of the
    members below are declared in a header that is missing.  The
    temporary data of the engine that the view selection reads:
    [_map_tracks] (track id, then view id, then feature id),
    [_map_tracksPerView] (view id, then the track ids of the view) and
    [_map_featsPyramidPerView], read as the cell index stored for a view,
    a track and a pyramid level.  [intrinsicsReconstructed] stands for
    the scene's record of which views have known intrinsics. *)
Record EngineData := {
  _map_tracks : gmap nat (gmap nat nat);
  _map_tracksPerView : gmap nat (list nat);
  _map_featsPyramidPerView : nat → nat → nat → nat;
  intrinsicsReconstructed : nat → bool
}.

(** [ViewConnectionScore]:
    <ImageId, NbPutativeCommonPoint, score, isIntrinsicsReconstructed>. *)
Abbreviation ViewConnectionScore := (nat * nat * Z * bool)%type (only parsing).

Definition vcsViewId (s : ViewConnectionScore) : nat := s.1.1.1.
Definition vcsCommonPoints (s : ViewConnectionScore) : nat := s.1.1.2.
Definition vcsScore (s : ViewConnectionScore) : Z := s.1.2.
Definition vcsIntrinsics (s : ViewConnectionScore) : bool := s.2.

(** ** Pyramid scoring *)

Module Pyramid.

(** Modelled from the spec: the body of [computeImageScore] is missing.
    [weight[level]]: the entry of [_pyramidWeights] for a level. *)
Definition weight (e : Engine.t) (level : nat) : Z :=
  default 0 (Engine._pyramidWeights e !! level).

(** Modelled from the spec: the body of [computeImageScore] is missing.
    The [_pyramidDepth] levels of the pyramid, from level 0 (the whole
    image). *)
Definition levels (e : Engine.t) : list nat :=
  seq 0 (Z.to_nat (Engine._pyramidDepth e)).

(** Modelled from the spec: the body of [computeImageScore] is missing.
    One observation lands in [cell]: it contributes the level's weight
    only while the running count of its cell is below the threshold, and
    the running count of the cell is advanced.  The accumulator is the
    running counts per cell and the score so far. *)
Definition countObservation (w threshold : Z)
    (acc : gmap nat Z * Z) (cell : nat) : gmap nat Z * Z :=
  let running := default 0 (acc.1 !! cell) in
  (<[cell := running + 1]> acc.1,
   if bool_decide (running < threshold) then acc.2 + w else acc.2).

(** Modelled from the spec: the body of [computeImageScore] is missing.
    The cells of the observations of [trackIds] in [viewId] at one level,
    read from the pyramid cache. *)
Definition cellsAtLevel (d : EngineData) (viewId level : nat)
    (trackIds : list nat) : list nat :=
  (λ t, _map_featsPyramidPerView d viewId t level) <$> trackIds.

(** Modelled from the spec: the body of [computeImageScore] is missing.
    The contribution of one pyramid level. *)
Definition levelScore (e : Engine.t) (d : EngineData) (viewId : nat)
    (trackIds : list nat) (level : nat) : Z :=
  (foldl (countObservation (weight e level) (Engine._pyramidThreshold e))
         (∅, 0) (cellsAtLevel d viewId level trackIds)).2.

(** Modelled from the spec: the body of [computeImageScore] is missing.
    The score of a view for a subset of its tracks: the contributions of
    the [_pyramidDepth] levels, level 0 being the whole image. *)
Definition computeImageScore (e : Engine.t) (d : EngineData) (viewId : nat)
    (trackIds : list nat) : Z :=
  foldl (λ score level, score + levelScore e d viewId trackIds level) 0
        (levels e).






(** The running count of a cell, as the scoring reads it, and the number
    of times a cell occurs in a list of cells. *)
Definition running (m : gmap nat Z) (cell : nat) : Z := default 0 (m !! cell).



End Pyramid.

(** ** Ranking of the remaining views and selection of a batch *)

Module Ranker.

(** Modelled from the spec: the body of [FindConnectedViews] is missing.
    A track is shared with the reconstruction when it is also observed by
    an already reconstructed view. *)
Definition observedByReconstructed (d : EngineData)
    (reconstructed : gset nat) (trackId : nat) : bool :=
  match _map_tracks d !! trackId with
  | Some obs => bool_decide (dom obs ∩ reconstructed ≠ ∅)
  | None => false
  end.

(** Modelled from the spec: the body of [FindConnectedViews] is missing.
    The tracks of a view that are shared with the reconstruction. *)
Definition sharedTracks (d : EngineData) (reconstructed : gset nat)
    (viewId : nat) : list nat :=
  filter (λ t, observedByReconstructed d reconstructed t = true)
         (default [] (_map_tracksPerView d !! viewId)).

(** Modelled from the spec: the body of [FindConnectedViews] is missing.
    The number of tracks of a view that are shared with the
    reconstruction. *)
Definition sharedObservationCount (d : EngineData) (reconstructed : gset nat)
    (viewId : nat) : nat :=
  length (sharedTracks d reconstructed viewId).

(** Modelled from the spec: the body of [FindConnectedViews] is missing.
    The connection score of a remaining view, when it shares a track. *)
Definition connectionScore (e : Engine.t) (d : EngineData)
    (reconstructed : gset nat) (viewId : nat) : option ViewConnectionScore :=
  let shared := sharedTracks d reconstructed viewId in
  if decide (0 < length shared)%nat
  then Some (viewId, length shared,
             Pyramid.computeImageScore e d viewId shared,
             intrinsicsReconstructed d viewId)
  else None.

(** Modelled from the spec: the body of [FindConnectedViews] is missing.
    The order of the output: descending by (score, common points), ties
    broken by ascending view id. *)
Definition ranksBefore (a b : ViewConnectionScore) : Prop :=
  vcsScore b < vcsScore a ∨
  (vcsScore a = vcsScore b ∧
   ((vcsCommonPoints b < vcsCommonPoints a)%nat ∨
    (vcsCommonPoints a = vcsCommonPoints b ∧
     (vcsViewId a ≤ vcsViewId b)%nat))).

(** The same order between two different views: strictly before. *)
Definition strictlyBefore (a b : ViewConnectionScore) : Prop :=
  vcsScore b < vcsScore a ∨
  (vcsScore a = vcsScore b ∧
   ((vcsCommonPoints b < vcsCommonPoints a)%nat ∨
    (vcsCommonPoints a = vcsCommonPoints b ∧
     (vcsViewId a < vcsViewId b)%nat))).

#[global] Instance ranksBefore_dec a b : Decision (ranksBefore a b).
Proof. unfold ranksBefore. apply _. Defined.

(** Modelled from the spec: the body of [FindConnectedViews] is missing.
    The result is the returned flag and [out_connectedViews]. *)
Definition FindConnectedViews (e : Engine.t) (d : EngineData)
    (reconstructed remainingViewIds : gset nat)
    : bool * list ViewConnectionScore :=
  let out_connectedViews :=
    merge_sort ranksBefore
      (omap (connectionScore e d reconstructed) (elements remainingViewIds)) in
  (bool_decide (out_connectedViews ≠ []), out_connectedViews).

(** Modelled from the spec: the body of [FindNextImagesGroupForResection]
    is missing.  A candidate is eligible when it offers at least
    [_minPointsPerPose] shared correspondences. *)
Definition eligible (e : Engine.t) (s : ViewConnectionScore) : Prop :=
  Engine._minPointsPerPose e ≤ Z.of_nat (vcsCommonPoints s).

#[global] Instance eligible_dec e s : Decision (eligible e s).
Proof. unfold eligible. apply _. Defined.

(** Modelled from the spec: the body of [FindNextImagesGroupForResection]
    is missing.  The eligible views of the ranking are grouped up to the
    internal batch-size cap [batchCap], a policy constant of the missing
    body.  The result is the returned flag and [out_selectedViewIds]. *)
Definition FindNextImagesGroupForResection (e : Engine.t) (d : EngineData)
    (batchCap : nat) (reconstructed remainingViewIds : gset nat)
    : bool * list nat :=
  let '(connected, ranking) :=
    FindConnectedViews e d reconstructed remainingViewIds in
  if connected
  then
    let out_selectedViewIds :=
      take batchCap (vcsViewId <$> filter (eligible e) ranking) in
    (bool_decide (out_selectedViewIds ≠ []), out_selectedViewIds)
  else (false, []).

End Ranker.

(** ** The scene and the external collaborators *)

Section Reconstruction.

(** A pose and a 3D point are produced and consumed by the external
    solvers only; the engine stores and forwards them. *)
Context {Pose Point : Type}.

(** Modelled from the spec: the scene types are declared in a header
    that is missing.  A triangulated point with the views that observe it
    (view id, then feature id), stored under the id of its track. *)
Record Landmark := {
  X : Point;
  obs : gmap nat nat
}.

(** Modelled from the spec: [SfM_Data] is declared in a header that is
    missing.  The part of the scene container that the growth loop
    mutates: the poses of the reconstructed views and the landmarks. *)
Record SfM_Data := {
  poses : gmap nat Pose;
  structure : gmap nat Landmark
}.

(** Modelled from the spec: the solvers are external to the engine.
    The external collaborators: the robust pose solver (a pose with the
    inlier correspondences, track id then feature id of the view, or
    failure), the triangulation with its depth and reprojection checks (a
    point or rejection), the bundle-adjustment solver (updated parameters
    or failure) and the residual of an observation, a function of the
    poses, the point and the observation. *)
Record Collaborators := {
  resectionSolver : SfM_Data → nat → option (Pose * gmap nat nat);
  triangulationSolver : SfM_Data → nat → gmap nat nat → option Point;
  bundleSolver : bool → SfM_Data → option (gmap nat Pose * gmap nat Point);
  residual : gmap nat Pose → Point → nat → nat → Q
}.

(** Modelled from the spec: the constants are set in the missing bodies.
    The policy constants: the batch-size cap, the
    refinement cadence (by round index), the iteration cap and the
    precision of the refinement stage, and whether the intrinsics are
    held fixed. *)
Record Policy := {
  batchCap : nat;
  refinementDue : nat → bool;
  iterationCap : nat;
  precision : Q;
  fixedIntrinsics : bool
}.

(** *** Refinement *)

(** Modelled from the spec: the body of [BundleAdjustment] is missing.
    The solver's updated parameters are written over the poses and the
    points that exist; on failure the scene is kept as it is and [false]
    is returned. *)
Definition BundleAdjustment (c : Collaborators) (fixedIntrinsics : bool)
    (s : SfM_Data) : bool * SfM_Data :=
  match bundleSolver c fixedIntrinsics s with
  | Some (newPoses, newPoints) =>
      (true,
       {| poses := map_imap (λ v p, Some (default p (newPoses !! v))) (poses s);
          structure :=
            map_imap (λ t L, Some {| X := default (X L) (newPoints !! t);
                                     obs := obs L |})
                     (structure s) |})
  | None => (false, s)
  end.

(** Modelled from the spec: the body of [badTrackRejector] is missing.
    An observation is kept when its residual does not exceed the
    precision. *)
Definition withinPrecision (c : Collaborators) (dPrecision : Q)
    (s : SfM_Data) (L : Landmark) (vf : nat * nat) : Prop :=
  Qle_bool (residual c (poses s) (X L) vf.1 vf.2) dPrecision = true.

#[global] Instance withinPrecision_dec c p s L vf :
  Decision (withinPrecision c p s L vf).
Proof. unfold withinPrecision. apply _. Defined.

(** Modelled from the spec: the body of [badTrackRejector] is missing.
    A landmark without the observations whose residual exceeds the
    precision. *)
Definition keepInliers (c : Collaborators) (dPrecision : Q) (s : SfM_Data)
    (L : Landmark) : Landmark :=
  {| X := X L; obs := filter (withinPrecision c dPrecision s L) (obs L) |}.

(** Modelled from the spec: the body of [badTrackRejector] is missing.
    The number of observations of a landmark whose residual exceeds the
    precision. *)
Definition outlierCount (c : Collaborators) (dPrecision : Q) (s : SfM_Data)
    (L : Landmark) : nat :=
  (size (obs L) - size (obs (keepInliers c dPrecision s L)))%nat.

(** Modelled from the spec: the body of [badTrackRejector] is missing.
    Every observation whose residual exceeds the precision is removed,
    then every landmark left with fewer than 2 observations; the second
    component is the number of observations removed for their residual. *)
Definition removeOutliers (c : Collaborators) (dPrecision : Q) (s : SfM_Data)
    : SfM_Data * nat :=
  ({| poses := poses s;
      structure :=
        omap (λ L, let L' := keepInliers c dPrecision s L in
                   if decide (2 ≤ size (obs L'))%nat then Some L' else None)
             (structure s) |},
   map_fold (λ _ L n, (n + outlierCount c dPrecision s L)%nat) 0%nat
            (structure s)).

(** Modelled from the spec: the body of [badTrackRejector] is missing.
    The header declares the result as a [bool] and [count] with default
    0: the result tells whether more than [count] observations were
    removed, which is what lets the refinement stage alternate until
    rejection removes nothing. *)
Definition badTrackRejector (c : Collaborators) (dPrecision : Q)
    (count : nat) (s : SfM_Data) : bool * SfM_Data :=
  let '(s', removed) := removeOutliers c dPrecision s in
  (bool_decide (count < removed)%nat, s').

(** Modelled from the spec: the refinement stage is part of the missing
    bodies.  Why a run of the stage stopped, and what it returns. *)
Inductive StopReason := Converged | CapReached | SolverFailed.

Record Refinement := {
  refined : SfM_Data;
  removedObservations : nat;
  iterations : nat;
  stopped : StopReason
}.

(** Modelled from the spec: the refinement stage is part of the missing
    bodies.  Bundle adjustment and rejection alternate until rejection
    removes zero observations or the iteration cap is reached; a failure
    of bundle adjustment skips the refinement and keeps the scene. *)
Fixpoint RefinementStage (c : Collaborators) (pol : Policy) (cap : nat)
    (s : SfM_Data) : Refinement :=
  match cap with
  | O => {| refined := s; removedObservations := 0; iterations := 0;
            stopped := CapReached |}
  | S cap' =>
      let '(adjusted, s1) := BundleAdjustment c (fixedIntrinsics pol) s in
      if adjusted then
        let '(more, s2) := badTrackRejector c (precision pol) 0 s1 in
        let removed := (removeOutliers c (precision pol) s1).2 in
        if more then
          let r := RefinementStage c pol cap' s2 in
          {| refined := refined r;
             removedObservations := (removed + removedObservations r)%nat;
             iterations := S (iterations r);
             stopped := stopped r |}
        else
          {| refined := s2; removedObservations := removed; iterations := 1;
             stopped := Converged |}
      else
        {| refined := s1; removedObservations := 0; iterations := 0;
           stopped := SolverFailed |}
  end.

(** *** Triangulation *)

(** Modelled from the spec: the body of [triangulate] is missing.  A
    track without a landmark is attempted when it is observed by a newly
    reconstructed view and by at least two reconstructed views, and
    satisfies [_minTrackLength]; an accepted point becomes a landmark
    observed by the reconstructed views of the track. *)
Definition triangulate (c : Collaborators) (e : Engine.t) (d : EngineData)
    (scene : SfM_Data)
    (previousReconstructedViews newReconstructedViews : gset nat)
    : SfM_Data :=
  let candidate (t : nat) (trackObs : gmap nat nat) : option Landmark :=
    let observers :=
      filter (λ vf : nat * nat,
                vf.1 ∈ previousReconstructedViews ∪ newReconstructedViews)
             trackObs in
    match structure scene !! t with
    | Some _ => None
    | None =>
        if decide (dom observers ∩ newReconstructedViews ≠ ∅
                   ∧ (2 ≤ size observers)%nat
                   ∧ Engine._minTrackLength e ≤ Z.of_nat (size observers))
        then (λ x, {| X := x; obs := observers |})
               <$> triangulationSolver c scene t observers
        else None
    end in
  {| poses := poses scene;
     structure := structure scene ∪ map_imap candidate (_map_tracks d) |}.

(** *** Resection *)

(** Modelled from the spec: the body of [Resection] is missing.  The
    inlier correspondences of a resected view are recorded as
    observations of the landmarks they match. *)
Definition recordInliers (imageIndex : nat) (inliers : gmap nat nat)
    (landmarks : gmap nat Landmark) : gmap nat Landmark :=
  map_imap (λ t L,
              Some match inliers !! t with
                   | Some f => {| X := X L; obs := <[imageIndex := f]> (obs L) |}
                   | None => L
                   end)
           landmarks.

(** Modelled from the spec: the body of [Resection] is missing.  The
    robust pose solver is run for the view on the scene as it was when
    the batch started; on success the pose is attached to the view and
    the inliers are recorded. *)
Definition Resection (c : Collaborators) (batchStart scene : SfM_Data)
    (imageIndex : nat) : bool * SfM_Data :=
  match resectionSolver c batchStart imageIndex with
  | Some (pose, inliers) =>
      (true, {| poses := <[imageIndex := pose]> (poses scene);
                structure := recordInliers imageIndex inliers (structure scene) |})
  | None => (false, scene)
  end.

(** Modelled from the spec: the body of [RobustResectionOfImages] is
    missing.  One view of the batch: a success goes to the reconstructed
    ids, a failure to the rejected ids.  The accumulator is the scene and
    the two output sets. *)
Definition resectView (c : Collaborators) (batchStart : SfM_Data)
    (acc : SfM_Data * gset nat * gset nat) (v : nat)
    : SfM_Data * gset nat * gset nat :=
  let '(resected, sc') := Resection c batchStart acc.1.1 v in
  if resected
  then (sc', {[v]} ∪ acc.1.2, acc.2)
  else (sc', acc.1.2, {[v]} ∪ acc.2).

(** Modelled from the spec: the body of [RobustResectionOfImages] is
    missing.  Each view of [viewIds] is resected on its own; a success
    goes to [set_reconstructedViewId], a failure to [set_rejectedViewId],
    and the next view is tried in either case.  The result is the scene
    and the two output sets. *)
Definition RobustResectionOfImages (c : Collaborators) (scene : SfM_Data)
    (viewIds set_reconstructedViewId set_rejectedViewId : gset nat)
    : SfM_Data * gset nat * gset nat :=
  foldl (resectView c scene)
        (scene, set_reconstructedViewId, set_rejectedViewId)
        (elements viewIds).

(** *** The reconstruction loop *)

(** Modelled from the spec: the body of [Process] is missing.  The state
    of the loop: the scene, the partition of the view ids
    ([_set_remainingViewId] and the reconstructed ids), the number of
    consecutive rounds without an eligible batch and the index of the
    round. *)
Record ReconstructionState := {
  scene : SfM_Data;
  reconstructed : gset nat;
  remaining : gset nat;
  noBatchRounds : nat;
  roundIndex : nat
}.

Inductive RoundResult :=
  | Done (s : ReconstructionState)
  | Grow (s : ReconstructionState).

(** Modelled from the spec: the body of [Process] is missing.  The part
    of a round that follows the selection of a batch: the views of the
    batch are resected, the successes move from [remaining] to
    [reconstructed], new structure is triangulated and, when due, the
    scene is refined. *)
Definition resectBatch (c : Collaborators) (pol : Policy) (e : Engine.t)
    (d : EngineData) (s : ReconstructionState) (batch : list nat)
    : ReconstructionState :=
  let '(sc1, newIds, rejectedIds) :=
    RobustResectionOfImages c (scene s) (list_to_set batch) ∅ ∅ in
  let sc2 := triangulate c e d sc1 (reconstructed s) newIds in
  let sc3 :=
    if refinementDue pol (roundIndex s)
    then refined (RefinementStage c pol (iterationCap pol) sc2)
    else sc2 in
  {| scene := sc3;
     reconstructed := reconstructed s ∪ newIds;
     remaining := remaining s ∖ newIds;
     noBatchRounds := 0;
     roundIndex := S (roundIndex s) |}.

(** Modelled from the spec: the body of [Process] is missing.  A round
    in which no candidate clears the points-per-pose bar: nothing moves
    and the round is counted. *)
Definition idleRound (s : ReconstructionState) : ReconstructionState :=
  {| scene := scene s;
     reconstructed := reconstructed s;
     remaining := remaining s;
     noBatchRounds := S (noBatchRounds s);
     roundIndex := S (roundIndex s) |}.

(** Modelled from the spec: the body of [Process] is missing.  One round
    of the growth loop: rank the remaining views, select a batch, resect
    it, triangulate and, when due, refine.  The loop is done when no
    remaining view is connected, or when no candidate clears the
    points-per-pose bar for the second round in a row. *)
Definition growRound (c : Collaborators) (pol : Policy) (e : Engine.t)
    (d : EngineData) (s : ReconstructionState) : RoundResult :=
  let '(connected, _) :=
    Ranker.FindConnectedViews e d (reconstructed s) (remaining s) in
  if connected then
    let '(selected, batch) :=
      Ranker.FindNextImagesGroupForResection e d (batchCap pol)
        (reconstructed s) (remaining s) in
    if selected then Grow (resectBatch c pol e d s batch)
    else if decide (1 ≤ noBatchRounds s)%nat then Done s
    else Grow (idleRound s)
  else Done s.

(** The state that a round leaves. *)
Definition roundState (r : RoundResult) : ReconstructionState :=
  match r with Done s | Grow s => s end.

(** Modelled from the spec: the body of [Process] is missing.  The
    state after at most [n] rounds; a finished loop stays where it is. *)
Fixpoint stateAfter (c : Collaborators) (pol : Policy) (e : Engine.t)
    (d : EngineData) (n : nat) (s : ReconstructionState)
    : ReconstructionState :=
  match n with
  | O => s
  | S n' =>
      match growRound c pol e d s with
      | Done s' => s'
      | Grow s' => stateAfter c pol e d n' s'
      end
  end.

(** Modelled from the spec: the body of [Process] is missing.  The
    growth loop run for at most [fuel] rounds: the final state when the
    loop is done within them, after the final refinement pass. *)
Fixpoint growLoop (c : Collaborators) (pol : Policy) (e : Engine.t)
    (d : EngineData) (fuel : nat) (s : ReconstructionState)
    : option ReconstructionState :=
  match fuel with
  | O => None
  | S fuel' =>
      match growRound c pol e d s with
      | Done s' =>
          Some {| scene :=
                    refined (RefinementStage c pol (iterationCap pol) (scene s'));
                  reconstructed := reconstructed s';
                  remaining := remaining s';
                  noBatchRounds := noBatchRounds s';
                  roundIndex := roundIndex s' |}
      | Grow s' => growLoop c pol e d fuel' s'
      end
  end.


(** The partition invariant of the loop's state. *)
Definition partitions (allViews : gset nat) (s : ReconstructionState) : Prop :=
  reconstructed s ∩ remaining s = ∅ ∧
  reconstructed s ∪ remaining s = allViews.






End Reconstruction.

Arguments Landmark : clear implicits.
Arguments SfM_Data : clear implicits.
Arguments Collaborators : clear implicits.
Arguments ReconstructionState : clear implicits.
Arguments RoundResult : clear implicits.
Arguments Refinement : clear implicits.


(** ** Concrete engines and scenes *)

Module Examples.

(** An engine with weights that double from level to level and a
    threshold of 3 observations per cell. *)
Definition engine3 : Engine.t :=
  Engine.construct "" (0, 0)%nat 0 0%nat 0%nat [1; 2; 4; 8; 16] 3.

(** The features of view 0 alternate between two cells from level 1 on;
    the features of every other view lie in cell 0 at every level. *)
Definition twoViews : EngineData :=
  {| _map_tracks := ∅;
     _map_tracksPerView := ∅;
     _map_featsPyramidPerView :=
       λ viewId trackId level,
         match viewId, level with
         | O, S _ => (trackId `mod` 2)%nat
         | _, _ => 0%nat
         end;
     intrinsicsReconstructed := λ _, true |}.

(** Forty tracks: tracks 0..29 are observed by views 1 and 3, tracks
    30..39 by views 1 and 2; view 4 observes nothing.  The feature of a
    track in a view has the number of the track. *)
Definition fortyTracks : EngineData :=
  {| _map_tracks :=
       list_to_map
         (((λ t, (t, {[1%nat := t; 3%nat := t]})) <$> seq 0 30)
          ++ ((λ t, (t, {[1%nat := t; 2%nat := t]})) <$> seq 30 10));
     _map_tracksPerView :=
       {[1%nat := seq 0 40; 2%nat := seq 30 10; 3%nat := seq 0 30]};
     _map_featsPyramidPerView := λ _ trackId level, (trackId `mod` 4 ^ level)%nat;
     intrinsicsReconstructed := λ _, true |}.

(** Collaborators over trivial poses and points: the pose solver succeeds
    on the views that [resect] accepts, with the features of the view on
    the tracks that have a landmark as inliers; triangulation accepts
    every point, bundle adjustment succeeds and changes nothing, and the
    residual of an observation is the number of its feature. *)
Definition solvers (resect : nat → bool) : Collaborators unit unit :=
  {| resectionSolver :=
       λ sc v,
         if resect v
         then Some (tt, map_imap (λ t _, _map_tracks fortyTracks !! t ≫= (.!! v))
                                 (structure sc))
         else None;
     triangulationSolver := λ _ _ _, Some tt;
     bundleSolver := λ _ _, Some (∅, ∅);
     residual := λ _ _ _ f, inject_Z (Z.of_nat f) |}.

Definition policy : Policy :=
  {| batchCap := 2;
     refinementDue := λ _, true;
     iterationCap := 5;
     precision := inject_Z 4;
     fixedIntrinsics := false |}.

(** Four views with a pose and one landmark; the observation of view 4
    has residual 9. *)
Definition sceneWithOutlier : SfM_Data unit unit :=
  {| poses := {[1%nat := tt; 2%nat := tt; 3%nat := tt; 4%nat := tt]};
     structure :=
       {[0%nat := {| X := tt;
                     obs := {[1%nat := 0%nat; 2%nat := 1%nat;
                              3%nat := 2%nat; 4%nat := 9%nat]} |}]} |}.

(** The same landmark with a second observation of residual 9. *)
Definition sceneWithTwoOutliers : SfM_Data unit unit :=
  {| poses := {[1%nat := tt; 2%nat := tt; 3%nat := tt; 4%nat := tt;
                5%nat := tt]};
     structure :=
       {[0%nat := {| X := tt;
                     obs := {[1%nat := 0%nat; 2%nat := 1%nat; 3%nat := 2%nat;
                              4%nat := 9%nat; 5%nat := 9%nat]} |}]} |}.

(** The state after the seed: views 0 and 1 have a pose, views 2, 3 and
    4 remain. *)
Definition seeded (round : nat) : ReconstructionState unit unit :=
  {| scene := {| poses := {[0%nat := tt; 1%nat := tt]}; structure := ∅ |};
     reconstructed := {[0%nat; 1%nat]};
     remaining := {[2%nat; 3%nat; 4%nat]};
     noBatchRounds := 0;
     roundIndex := round |}.

End Examples.

(** ** The data members, one by one *)

Module Members.
Import Engine.

(** The data members of [Engine.t], in the order of the header. *)
Inductive Member :=
  | M_sLoggingFile
  | M_sfmdataInterFileExtension
  | M_sfmdataInterFilter
  | M_userInteraction
  | M_userInitialImagePair
  | M_camType
  | M_minInputTrackLength
  | M_minTrackLength
  | M_minPointsPerPose
  | M_featuresPerView
  | M_pairwiseMatches
  | M_pyramidBase
  | M_pyramidDepth
  | M_pyramidWeights
  | M_pyramidThreshold.

#[global] Instance Member_eq_dec : EqDecision Member.
Proof. solve_decision. Defined.

Definition memberType (m : Member) : Type :=
  match m with
  | M_sLoggingFile => string
  | M_sfmdataInterFileExtension => string
  | M_sfmdataInterFilter => list ESfM_Flag
  | M_userInteraction => bool
  | M_userInitialImagePair => Pair
  | M_camType => EINTRINSIC
  | M_minInputTrackLength => Z
  | M_minTrackLength => Z
  | M_minPointsPerPose => Z
  | M_featuresPerView => Ptr
  | M_pairwiseMatches => Ptr
  | M_pyramidBase => Z
  | M_pyramidDepth => Z
  | M_pyramidWeights => list Z
  | M_pyramidThreshold => Z
  end.

(** The value of a member. *)
Definition readMember (m : Member) (e : t) : memberType m :=
  match m with
  | M_sLoggingFile => _sLoggingFile e
  | M_sfmdataInterFileExtension => _sfmdataInterFileExtension e
  | M_sfmdataInterFilter => _sfmdataInterFilter e
  | M_userInteraction => _userInteraction e
  | M_userInitialImagePair => _userInitialImagePair e
  | M_camType => _camType e
  | M_minInputTrackLength => _minInputTrackLength e
  | M_minTrackLength => _minTrackLength e
  | M_minPointsPerPose => _minPointsPerPose e
  | M_featuresPerView => _featuresPerView e
  | M_pairwiseMatches => _pairwiseMatches e
  | M_pyramidBase => _pyramidBase e
  | M_pyramidDepth => _pyramidDepth e
  | M_pyramidWeights => _pyramidWeights e
  | M_pyramidThreshold => _pyramidThreshold e
  end.

(** The member that the body of a setter assigns. *)
Definition target (c : Setter) : Member :=
  match c with
  | CallSetFeatures _ => M_featuresPerView
  | CallSetMatches _ => M_pairwiseMatches
  | CallSetInitialPair _ => M_userInitialImagePair
  | CallSetUnknownCameraType _ => M_camType
  | CallSetSfmdataInterFileExtension _ => M_sfmdataInterFileExtension
  | CallSetAllowUserInteraction _ => M_userInteraction
  | CallSetMinInputTrackLength _ => M_minInputTrackLength
  | CallSetMinTrackLength _ => M_minTrackLength
  end.

(** The value that a setter call assigns to a member, if it assigns it. *)
Definition assigned (m : Member) (c : Setter) : option (memberType m) :=
  match m return option (memberType m) with
  | M_featuresPerView =>
      match c with CallSetFeatures p => Some p | _ => None end
  | M_pairwiseMatches =>
      match c with CallSetMatches p => Some p | _ => None end
  | M_userInitialImagePair =>
      match c with CallSetInitialPair p => Some p | _ => None end
  | M_camType =>
      match c with CallSetUnknownCameraType t => Some t | _ => None end
  | M_sfmdataInterFileExtension =>
      match c with CallSetSfmdataInterFileExtension s => Some s | _ => None end
  | M_userInteraction =>
      match c with CallSetAllowUserInteraction b => Some b | _ => None end
  | M_minInputTrackLength =>
      match c with CallSetMinInputTrackLength n => Some n | _ => None end
  | M_minTrackLength =>
      match c with CallSetMinTrackLength n => Some n | _ => None end
  | _ => None
  end.

(** The value assigned to a member by the last call of a sequence that
    assigns it. *)
Definition lastAssigned (m : Member) (cs : list Setter) : option (memberType m) :=
  foldl (λ acc c, match assigned m c with Some v => Some v | None => acc end)
        None cs.


(** The members that have a setter. *)
Definition memberHasSetter (m : Member) : bool :=
  match m with
  | M_featuresPerView | M_pairwiseMatches | M_userInitialImagePair
  | M_camType | M_sfmdataInterFileExtension | M_userInteraction
  | M_minInputTrackLength | M_minTrackLength => true
  | _ => false
  end.

(** The setter calls that copy the settable members of an engine. *)
Definition settersOf (e : t) : list Setter :=
  [CallSetFeatures (_featuresPerView e);
   CallSetMatches (_pairwiseMatches e);
   CallSetInitialPair (_userInitialImagePair e);
   CallSetUnknownCameraType (_camType e);
   CallSetSfmdataInterFileExtension (_sfmdataInterFileExtension e);
   CallSetAllowUserInteraction (_userInteraction e);
   CallSetMinInputTrackLength (_minInputTrackLength e);
   CallSetMinTrackLength (_minTrackLength e)].

End Members.
(** * Properties *)

(** ** The configuration interface *)

Module EngineFacts.
Import Engine.

Lemma call_keeps_private (c : Setter) (e : t) :
  _minPointsPerPose (call c e) = _minPointsPerPose e ∧
  _sfmdataInterFilter (call c e) = _sfmdataInterFilter e ∧
  _pyramidBase (call c e) = _pyramidBase e ∧
  _pyramidDepth (call c e) = _pyramidDepth e.
Proof. by destruct c. Qed.

Lemma calls_keep_private (cs : list Setter) (e : t) :
  _minPointsPerPose (foldl (flip call) e cs) = _minPointsPerPose e ∧
  _sfmdataInterFilter (foldl (flip call) e cs) = _sfmdataInterFilter e.
Proof.
  revert e. induction cs as [|c cs IH]; intros e; [done|].
  simpl. destruct (IH (call c e)) as [-> ->].
  destruct (call_keeps_private c e) as (-> & -> & _). done.
Qed.

(** C9, as stated: every recognised option can be set through the public
    setters.  It fails: no setter stores the minimum number of points per
    pose, which stays at its initialiser 30. *)
Lemma not_every_option_settable : ¬ (∀ o : ConfigOption, settable o).
Proof.
  intros H.
  destruct (H OptMinPointsPerPose (construct "" (0, 0)%nat 0 0%nat 0%nat [] 1) 31)
    as [c Hc].
  simpl in Hc.
  destruct (call_keeps_private c (construct "" (0, 0)%nat 0 0%nat 0%nat [] 1))
    as [Hk _].
  rewrite Hk in Hc. discriminate Hc.
Qed.

(** C9, amended: the initial pair, the camera model for unknown types, the
    minimum input track length, the minimum accepted track length, the
    interactive mode and the snapshot file format can each be set to any
    value by a public setter; the minimum number of points per pose and
    the snapshot scene fields are left unchanged by every sequence of
    setter calls. *)
Theorem options_with_a_setter (o : ConfigOption) :
  if hasSetter o
  then settable o
  else ∀ (cs : list Setter) (e : t),
         readOption o (foldl (flip call) e cs) = readOption o e.
Proof.
  destruct o; simpl.
  - intros e v. by exists (CallSetInitialPair v).
  - intros e v. by exists (CallSetUnknownCameraType v).
  - intros e v. by exists (CallSetMinInputTrackLength v).
  - intros e v. by exists (CallSetMinTrackLength v).
  - intros cs e. apply calls_keep_private.
  - intros e v. by exists (CallSetAllowUserInteraction v).
  - intros e v. by exists (CallSetSfmdataInterFileExtension v).
  - intros cs e. apply calls_keep_private.
Qed.

Lemma perform_keeps_const outOfLine (c : PublicCall) (e : t) :
  respectsConst outOfLine →
  _pyramidBase (perform outOfLine c e) = _pyramidBase e ∧
  _pyramidDepth (perform outOfLine c e) = _pyramidDepth e.
Proof.
  intros Hc. destruct c as [s|m]; simpl.
  - destruct (call_keeps_private s e) as (_ & _ & ? & ?). done.
  - apply Hc.
Qed.

(** C10: after construction and any sequence of calls through the public
    interface, the pyramid base is 2 and the pyramid depth is 5, so the
    scores are computed over the five levels 0..4. *)
Theorem pyramid_parameters_fixed outOfLine
    (Hconst : respectsConst outOfLine)
    loggingFile initialPair camType features matches weights threshold
    (cs : list PublicCall) :
  let e := foldl (λ e c, perform outOfLine c e)
                 (construct loggingFile initialPair camType features matches
                            weights threshold) cs in
  _pyramidBase e = 2 ∧ _pyramidDepth e = 5 ∧
  Pyramid.levels e = [0; 1; 2; 3; 4]%nat.
Proof.
  simpl.
  assert (∀ e0, _pyramidBase e0 = 2 → _pyramidDepth e0 = 5 →
    _pyramidBase (foldl (λ e c, perform outOfLine c e) e0 cs) = 2 ∧
    _pyramidDepth (foldl (λ e c, perform outOfLine c e) e0 cs) = 5) as Hinv.
  { induction cs as [|c cs IH]; intros e0 Hb Hd; [done|].
    simpl. destruct (perform_keeps_const outOfLine c e0 Hconst) as [Hb' Hd'].
    apply IH; congruence. }
  destruct (Hinv (construct loggingFile initialPair camType features matches
                            weights threshold) eq_refl eq_refl) as [Hb Hd].
  repeat split; [done..|]. unfold Pyramid.levels. by rewrite Hd.
Qed.

Lemma pyramid_parameters_fixed_witness :
  respectsConst (λ _ e, e) ∧
  let e := foldl (λ e c, perform (λ _ e, e) c e)
                 (construct "log.html" (0, 1)%nat 3 0%nat 0%nat [1; 4; 16; 64; 256] 1)
                 [Inline (CallSetMinTrackLength 3); OutOfLine CallProcess;
                  Inline (CallSetAllowUserInteraction false)] in
  _pyramidBase e = 2 ∧ _pyramidDepth e = 5 ∧
  Pyramid.levels e = [0; 1; 2; 3; 4]%nat.
Proof.
  assert (respectsConst (λ _ e, e)) as H by (intros m e; done).
  split; [exact H|].
  apply (pyramid_parameters_fixed (λ _ e, e) H).
Defined.

End EngineFacts.

(** ** Pyramid scoring *)

Module PyramidFacts.
Import Pyramid.





















(** Two observations score 62 spread over two cells and 62 in one cell;
    four observations score 123 spread and 93 in one cell, which
    saturates at 3. *)
Example score_of_two :
  computeImageScore Examples.engine3 Examples.twoViews 0 [0; 1]%nat = 62 ∧
  computeImageScore Examples.engine3 Examples.twoViews 1 [0; 1]%nat = 62.
Proof. by vm_compute. Qed.

Example score_of_four :
  computeImageScore Examples.engine3 Examples.twoViews 0 [0; 1; 2; 3]%nat = 123 ∧
  computeImageScore Examples.engine3 Examples.twoViews 1 [0; 1; 2; 3]%nat = 93.
Proof. by vm_compute. Qed.




End PyramidFacts.

(** ** Ranking and batch selection *)

Module RankerFacts.
Import Ranker.

#[local] Instance ranksBefore_total : Total ranksBefore.
Proof. intros a b. unfold ranksBefore. lia. Qed.

#[local] Instance ranksBefore_trans : Transitive ranksBefore.
Proof. intros a b c. unfold ranksBefore. lia. Qed.

Lemma connectionScore_Some e d rec v s :
  connectionScore e d rec v = Some s →
  vcsViewId s = v ∧
  vcsCommonPoints s = sharedObservationCount d rec v ∧
  vcsScore s = Pyramid.computeImageScore e d v (sharedTracks d rec v) ∧
  (0 < sharedObservationCount d rec v)%nat.
Proof.
  unfold connectionScore, sharedObservationCount.
  case_decide; [|done]. intros [= <-]. done.
Qed.

Lemma connectionScore_None e d rec v :
  connectionScore e d rec v = None ↔ sharedObservationCount d rec v = 0%nat.
Proof.
  unfold connectionScore, sharedObservationCount.
  case_decide; split; intros; try done; lia.
Qed.

(** The views of the scored candidates are the views that share a track,
    in the order in which they were scanned. *)
Lemma scored_views e d rec (vs : list nat) :
  vcsViewId <$> omap (connectionScore e d rec) vs
  = filter (λ v, (0 < sharedObservationCount d rec v)%nat) vs.
Proof.
  induction vs as [|v vs IH]; [done|].
  change (omap (connectionScore e d rec) (v :: vs))
    with (match connectionScore e d rec v with
          | Some s => s :: omap (connectionScore e d rec) vs
          | None => omap (connectionScore e d rec) vs
          end).
  destruct (connectionScore e d rec v) as [s|] eqn:Hs.
  - apply connectionScore_Some in Hs as (Hv & _ & _ & Hpos).
    rewrite filter_cons_True by done. rewrite fmap_cons, IH. by rewrite Hv.
  - apply connectionScore_None in Hs.
    rewrite filter_cons_False by lia. done.
Qed.

Lemma connected_views_perm e d rec rem :
  vcsViewId <$> (FindConnectedViews e d rec rem).2
  ≡ₚ filter (λ v, (0 < sharedObservationCount d rec v)%nat) (elements rem).
Proof.
  unfold FindConnectedViews. simpl.
  rewrite merge_sort_Permutation. by rewrite scored_views.
Qed.

Lemma connected_views_NoDup e d rec rem :
  NoDup (vcsViewId <$> (FindConnectedViews e d rec rem).2).
Proof.
  rewrite connected_views_perm. apply NoDup_filter, NoDup_elements.
Qed.

Lemma connected_entry e d rec rem s :
  s ∈ (FindConnectedViews e d rec rem).2 →
  vcsViewId s ∈ rem ∧ connectionScore e d rec (vcsViewId s) = Some s.
Proof.
  unfold FindConnectedViews. simpl. rewrite merge_sort_Permutation.
  intros Hin. apply list_elem_of_omap in Hin as (v & Hv & Hs).
  pose proof (connectionScore_Some _ _ _ _ _ Hs) as (-> & _).
  split; [by apply elem_of_elements in Hv|done].
Qed.

(** In a list without two entries for one view, the order of the sort is
    strict. *)
Lemma sorted_strictly (l : list ViewConnectionScore) :
  StronglySorted ranksBefore l → NoDup (vcsViewId <$> l) →
  StronglySorted strictlyBefore l.
Proof.
  induction 1 as [|a l Hl IH Hall]; intros Hnd; [constructor|].
  rewrite fmap_cons in Hnd. apply NoDup_cons in Hnd as [Hnotin Hnd].
  constructor; [by apply IH|].
  apply Forall_forall. intros b Hb.
  rewrite Forall_forall in Hall. specialize (Hall b Hb).
  assert (vcsViewId a ≠ vcsViewId b) as Hne.
  { intros Heq. apply Hnotin. rewrite Heq. by apply list_elem_of_fmap_2. }
  unfold ranksBefore in Hall. unfold strictlyBefore. lia.
Qed.

Lemma connected_sorted e d rec rem :
  StronglySorted strictlyBefore (FindConnectedViews e d rec rem).2.
Proof.
  apply sorted_strictly; [|apply connected_views_NoDup].
  unfold FindConnectedViews. simpl. apply StronglySorted_merge_sort; apply _.
Qed.

Lemma connected_flag e d rec rem :
  (FindConnectedViews e d rec rem).1 = false ↔
  ∀ v, v ∈ rem → sharedObservationCount d rec v = 0%nat.
Proof.
  pose proof (connected_views_perm e d rec rem) as Hperm.
  change ((FindConnectedViews e d rec rem).1)
    with (bool_decide ((FindConnectedViews e d rec rem).2 ≠ [])).
  rewrite bool_decide_eq_false. split.
  - intros Hnil v Hv.
    destruct (decide (sharedObservationCount d rec v = 0%nat)) as [|Hpos]; [done|].
    assert (v ∈ vcsViewId <$> (FindConnectedViews e d rec rem).2) as Hin.
    { rewrite Hperm. apply list_elem_of_filter. split; [lia|].
      by apply elem_of_elements. }
    apply dec_stable in Hnil. rewrite Hnil in Hin. by apply elem_of_nil in Hin.
  - intros Hzero Hne.
    destruct ((FindConnectedViews e d rec rem).2) as [|s l] eqn:Hout; [done|].
    assert (vcsViewId s ∈ filter (λ v, (0 < sharedObservationCount d rec v)%nat)
                                 (elements rem)) as Hin.
    { rewrite <- Hperm. rewrite fmap_cons. left. }
    apply list_elem_of_filter in Hin as [Hpos Hin].
    apply elem_of_elements in Hin. specialize (Hzero _ Hin). lia.
Qed.

(** C2: [FindConnectedViews] returns exactly the remaining views that
    share at least one track with the reconstruction, each with its
    shared-observation count and spatial score, sorted descending by
    (score, count) with ties broken by ascending view id, and returns
    [false] exactly when no remaining view shares a track. *)
Theorem FindConnectedViews_correct (e : Engine.t) (d : EngineData)
    (reconstructed remainingViewIds : gset nat) :
  let result := FindConnectedViews e d reconstructed remainingViewIds in
  (∀ v, v ∈ vcsViewId <$> result.2 ↔
        v ∈ remainingViewIds ∧ (0 < sharedObservationCount d reconstructed v)%nat)
  ∧ NoDup (vcsViewId <$> result.2)
  ∧ (∀ s, s ∈ result.2 →
       vcsCommonPoints s = sharedObservationCount d reconstructed (vcsViewId s) ∧
       vcsScore s = Pyramid.computeImageScore e d (vcsViewId s)
                      (sharedTracks d reconstructed (vcsViewId s)))
  ∧ StronglySorted strictlyBefore result.2
  ∧ (result.1 = false ↔
     ∀ v, v ∈ remainingViewIds → sharedObservationCount d reconstructed v = 0%nat).
Proof.
  intros result. subst result.
  split; [|split; [|split; [|split]]].
  - intros v. rewrite connected_views_perm, list_elem_of_filter, elem_of_elements.
    tauto.
  - apply connected_views_NoDup.
  - intros s Hs. apply connected_entry in Hs as [_ Hs].
    apply connectionScore_Some in Hs as (_ & ? & ? & _). done.
  - apply connected_sorted.
  - apply connected_flag.
Qed.

Lemma selected_unfold e d cap rec rem :
  FindNextImagesGroupForResection e d cap rec rem
  = if (FindConnectedViews e d rec rem).1
    then
      let batch :=
        take cap (vcsViewId <$> filter (eligible e)
                                       (FindConnectedViews e d rec rem).2) in
      (bool_decide (batch ≠ []), batch)
    else (false, []).
Proof. reflexivity. Qed.

(** A selected view is a remaining view that clears the points-per-pose
    bar. *)
Lemma selected_member e d cap rec rem v :
  v ∈ (FindNextImagesGroupForResection e d cap rec rem).2 →
  v ∈ rem ∧
  Engine._minPointsPerPose e ≤ Z.of_nat (sharedObservationCount d rec v).
Proof.
  rewrite selected_unfold.
  destruct ((FindConnectedViews e d rec rem).1); simpl;
    [|by intros ?%elem_of_nil].
  intros Hv. apply elem_of_take in Hv as (i & Hi & _).
  apply list_elem_of_lookup_2 in Hi.
  apply list_elem_of_fmap in Hi as (s & -> & Hs).
  apply list_elem_of_filter in Hs as [Hel Hs].
  apply connected_entry in Hs as [Hrem Hs].
  apply connectionScore_Some in Hs as (_ & Hcount & _).
  split; [done|]. unfold eligible in Hel. by rewrite Hcount in Hel.
Qed.

Lemma selected_NoDup e d cap rec rem :
  NoDup (FindNextImagesGroupForResection e d cap rec rem).2.
Proof.
  rewrite selected_unfold.
  destruct ((FindConnectedViews e d rec rem).1); simpl; [|constructor].
  eapply sublist_NoDup; [|apply sublist_take].
  eapply sublist_NoDup; [apply (connected_views_NoDup e d rec rem)|].
  apply fmap_sublist, sublist_filter.
Qed.



End RankerFacts.

(** ** Refinement: bundle adjustment and outlier rejection *)

Section RefinementFacts.
Context {Pose Point : Type}.
Implicit Types (c : Collaborators Pose Point) (s : SfM_Data Pose Point).
Implicit Types (L : Landmark Point).

Lemma keepInliers_lookup c p s L v f :
  obs (keepInliers c p s L) !! v = Some f ↔
  obs L !! v = Some f ∧ withinPrecision c p s L (v, f).
Proof. unfold keepInliers. simpl. apply map_lookup_filter_Some. Qed.






Lemma removeOutliers_lookup c p s t L' :
  structure (removeOutliers c p s).1 !! t = Some L' ↔
  ∃ L, structure s !! t = Some L ∧ L' = keepInliers c p s L ∧
       (2 ≤ size (obs L'))%nat.
Proof.
  unfold removeOutliers. simpl. rewrite lookup_omap_Some. split.
  - intros (L & HL & Ht). exists L. case_decide; [|done].
    injection HL as <-. done.
  - intros (L & Ht & -> & Hsize). exists L. split; [|done].
    by rewrite decide_True.
Qed.



(** Every observation that exceeds the precision is gone afterwards. *)
Lemma removeOutliers_removes c p s t L v f L' :
  structure s !! t = Some L → obs L !! v = Some f →
  ¬ withinPrecision c p s L (v, f) →
  structure (removeOutliers c p s).1 !! t = Some L' → obs L' !! v = None.
Proof.
  intros Ht Hvf Hout Ht'.
  apply removeOutliers_lookup in Ht' as (L0 & Ht0 & -> & _).
  assert (L0 = L) as -> by congruence.
  destruct (obs (keepInliers c p s L) !! v) as [f'|] eqn:Hl; [|done].
  apply keepInliers_lookup in Hl as [Hl Hin].
  assert (f' = f) as -> by congruence. done.
Qed.














End RefinementFacts.

Module RefinementExamples.





End RefinementExamples.

(** ** Resection, triangulation and the reconstruction loop *)

(** Moving a part of the remaining ids to the reconstructed ids keeps a
    partition. *)
Lemma move_partition (recIds remIds moved allViews : gset nat) :
  recIds ∩ remIds = ∅ → recIds ∪ remIds = allViews → moved ⊆ remIds →
  (recIds ∪ moved) ∩ (remIds ∖ moved) = ∅ ∧
  (recIds ∪ moved) ∪ (remIds ∖ moved) = allViews.
Proof.
  intros Hdisj Hunion Hsub.
  split; apply set_eq; intros x; destruct (decide (x ∈ moved)); set_solver.
Qed.

Section LoopFacts.
Context {Pose Point : Type}.
Implicit Types (c : Collaborators Pose Point) (sc : SfM_Data Pose Point).
Implicit Types (s : ReconstructionState Pose Point).

Lemma resectView_spec c sc0 sc (recIds rejIds : gset nat) v :
  resectView c sc0 (sc, recIds, rejIds) v =
  match resectionSolver c sc0 v with
  | Some (pose, inliers) =>
      ({| poses := <[v := pose]> (poses sc);
          structure := recordInliers v inliers (structure sc) |},
       {[v]} ∪ recIds, rejIds)
  | None => (sc, recIds, {[v]} ∪ rejIds)
  end.
Proof.
  unfold resectView, Resection. simpl.
  by destruct (resectionSolver c sc0 v) as [[pose inliers]|].
Qed.

(** The outcome of the resections of a list of views: each view is
    decided by the solver's answer for that view alone. *)
Lemma resect_fold c sc0 (l : list nat) : ∀ sc (recIds rejIds : gset nat),
  let r := foldl (resectView c sc0) (sc, recIds, rejIds) l in
  (∀ v, poses r.1.1 !! v =
        if decide (v ∈ l)
        then match resectionSolver c sc0 v with
             | Some found => Some found.1
             | None => poses sc !! v
             end
        else poses sc !! v)
  ∧ (∀ v, v ∈ r.1.2 ↔ v ∈ recIds ∨ (v ∈ l ∧ is_Some (resectionSolver c sc0 v)))
  ∧ (∀ v, v ∈ r.2 ↔ v ∈ rejIds ∨ (v ∈ l ∧ resectionSolver c sc0 v = None)).
Proof.
  induction l as [|u l IH]; intros sc recIds rejIds.
  - simpl. split; [done|]. split; intros v.
    + rewrite elem_of_nil. tauto.
    + rewrite elem_of_nil. tauto.
  - simpl foldl. rewrite resectView_spec.
    destruct (resectionSolver c sc0 u) as [[pose inliers]|] eqn:Hu.
    + destruct (IH {| poses := <[u := pose]> (poses sc);
                      structure := recordInliers u inliers (structure sc) |}
                   ({[u]} ∪ recIds) rejIds)
        as (Hps & Hrec & Hrej).
      split; [|split]; intros v.
      * rewrite Hps. simpl.
        destruct (decide (v = u)) as [->|Hne].
        -- rewrite lookup_insert_eq, Hu.
           rewrite (decide_True (P := u ∈ u :: l)) by left.
           by case_decide.
        -- rewrite lookup_insert_ne by done.
           destruct (decide (v ∈ l)) as [Hin|Hnin].
           ++ by rewrite decide_True by (by right).
           ++ rewrite decide_False; [done|].
              intros [?|?]%elem_of_cons; done.
      * rewrite Hrec, elem_of_union, elem_of_singleton, elem_of_cons.
        split; [|naive_solver].
        intros [[->|?]|[? ?]]; [|by left|by right; split; [right|]].
        right. split; [by left|]. by rewrite Hu.
      * rewrite Hrej, elem_of_cons. split; [naive_solver|].
        intros [?|[[->|?] ?]]; [by left|congruence|by right].
    + destruct (IH sc recIds ({[u]} ∪ rejIds)) as (Hps & Hrec & Hrej).
      split; [|split]; intros v.
      * rewrite Hps.
        destruct (decide (v = u)) as [->|Hne].
        -- rewrite Hu. rewrite (decide_True (P := u ∈ u :: l)) by left.
           by case_decide.
        -- destruct (decide (v ∈ l)) as [Hin|Hnin].
           ++ by rewrite decide_True by (by right).
           ++ rewrite decide_False; [done|].
              intros [?|?]%elem_of_cons; done.
      * rewrite Hrec, elem_of_cons. split; [naive_solver|].
        intros [?|[[->|?] Hs]]; [by left| |by right].
        rewrite Hu in Hs. by destruct Hs.
      * rewrite Hrej, elem_of_union, elem_of_singleton, elem_of_cons.
        split; [|naive_solver].
        intros [[->|?]|[? ?]]; [|by left|by right; split; [right|]].
        right. split; [by left|done].
Qed.





Lemma robust_spec c sc (viewIds : gset nat) :
  let r := RobustResectionOfImages c sc viewIds ∅ ∅ in
  (∀ v, poses r.1.1 !! v =
        if decide (v ∈ viewIds)
        then match resectionSolver c sc v with
             | Some found => Some found.1
             | None => poses sc !! v
             end
        else poses sc !! v)
  ∧ (∀ v, v ∈ r.1.2 ↔ v ∈ viewIds ∧ is_Some (resectionSolver c sc v))
  ∧ (∀ v, v ∈ r.2 ↔ v ∈ viewIds ∧ resectionSolver c sc v = None).
Proof.
  unfold RobustResectionOfImages.
  destruct (resect_fold c sc (elements viewIds) sc ∅ ∅) as (Hps & Hrec & Hrej).
  split; [|split]; intros v.
  - rewrite Hps. destruct (decide (v ∈ viewIds)) as [Hin|Hnin].
    + by rewrite decide_True by (by apply elem_of_elements).
    + rewrite decide_False; [done|]. by rewrite elem_of_elements.
  - rewrite Hrec, elem_of_elements. set_solver.
  - rewrite Hrej, elem_of_elements. set_solver.
Qed.







Lemma growRound_unfold c pol e d s :
  growRound c pol e d s =
  let sel := Ranker.FindNextImagesGroupForResection e d (batchCap pol)
               (reconstructed s) (remaining s) in
  if (Ranker.FindConnectedViews e d (reconstructed s) (remaining s)).1 then
    if sel.1 then Grow (resectBatch c pol e d s sel.2)
    else if decide (1 ≤ noBatchRounds s)%nat then Done s
    else Grow (idleRound s)
  else Done s.
Proof.
  unfold growRound. cbv zeta.
  destruct (Ranker.FindNextImagesGroupForResection e d (batchCap pol)
              (reconstructed s) (remaining s)) as [selected batch].
  reflexivity.
Qed.

(** The cases of a round: a batch round, or a round without a batch
    (which halts the loop the second time); a round that finds no
    connected view is closed at once when the goal holds for [Done s]. *)
Ltac round_cases e d pol s :=
  rewrite growRound_unfold; cbv zeta;
  destruct ((Ranker.FindConnectedViews e d (reconstructed s) (remaining s)).1);
    [|done];
  destruct ((Ranker.FindNextImagesGroupForResection e d (batchCap pol)
               (reconstructed s) (remaining s)).1).

Lemma resectBatch_unfold c pol e d s batch :
  resectBatch c pol e d s batch =
  let r := RobustResectionOfImages c (scene s) (list_to_set batch) ∅ ∅ in
  let sc2 := triangulate c e d r.1.1 (reconstructed s) r.1.2 in
  {| scene := if refinementDue pol (roundIndex s)
              then refined (RefinementStage c pol (iterationCap pol) sc2)
              else sc2;
     reconstructed := reconstructed s ∪ r.1.2;
     remaining := remaining s ∖ r.1.2;
     noBatchRounds := 0;
     roundIndex := S (roundIndex s) |}.
Proof.
  unfold resectBatch.
  by destruct (RobustResectionOfImages c (scene s) (list_to_set batch) ∅ ∅)
    as [[sc1 newIds] rejectedIds].
Qed.



(** The views that a batch round moves are remaining views of the batch
    for which the solver succeeded. *)
Lemma moved_views c pol e d s v :
  v ∈ (RobustResectionOfImages c (scene s)
         (list_to_set (Ranker.FindNextImagesGroupForResection e d (batchCap pol)
                         (reconstructed s) (remaining s)).2) ∅ ∅).1.2 →
  v ∈ remaining s ∧
  Engine._minPointsPerPose e
  ≤ Z.of_nat (Ranker.sharedObservationCount d (reconstructed s) v) ∧
  is_Some (resectionSolver c (scene s) v).
Proof.
  intros Hv. apply robust_spec in Hv as [Hin Hsome].
  apply elem_of_list_to_set in Hin.
  apply RankerFacts.selected_member in Hin as [? ?]. done.
Qed.

(** One round keeps the partition and moves ids one way only. *)
Lemma growRound_partition c pol e d (allViews : gset nat) s :
  partitions allViews s →
  partitions allViews (roundState (growRound c pol e d s)) ∧
  reconstructed s ⊆ reconstructed (roundState (growRound c pol e d s)) ∧
  remaining (roundState (growRound c pol e d s)) ⊆ remaining s.
Proof.
  intros [Hdisj Hunion]. round_cases e d pol s.
  - cbn [roundState]. rewrite resectBatch_unfold. cbv zeta.
    unfold partitions. cbn [reconstructed remaining].
    pose proof (moved_views c pol e d s) as Hmoved.
    set (newIds := (RobustResectionOfImages c (scene s) _ ∅ ∅).1.2) in *.
    assert (newIds ⊆ remaining s) as Hsub by (intros v Hv; by apply Hmoved).
    clearbody newIds. clear Hmoved.
    split; [by apply move_partition|set_solver].
  - case_decide; [done|]. cbn [roundState]. done.
Qed.



Lemma stateAfter_S c pol e d n s :
  stateAfter c pol e d (S n) s =
  match growRound c pol e d s with
  | Done s' => s'
  | Grow s' => stateAfter c pol e d n s'
  end.
Proof. reflexivity. Qed.

(** An invariant of the rounds is an invariant of the loop. *)
Lemma stateAfter_invariant c pol e d (I : ReconstructionState Pose Point → Prop) :
  (∀ s, I s → I (roundState (growRound c pol e d s))) →
  ∀ n s, I s → I (stateAfter c pol e d n s).
Proof.
  intros Hstep n. induction n as [|n IH]; intros s Hs; [done|].
  rewrite stateAfter_S. specialize (Hstep s Hs).
  destruct (growRound c pol e d s) as [s'|s']; [done|]. by apply IH.
Qed.








(** C1: at every round of the reconstruction loop the reconstructed and
    the remaining view ids are disjoint and their union is the set of all
    view ids; the rounds move ids from remaining to reconstructed only. *)
Theorem partition_invariant c pol e d (allViews : gset nat) s (n : nat) :
  partitions allViews s →
  let s' := stateAfter c pol e d n s in
  reconstructed s' ∩ remaining s' = ∅
  ∧ reconstructed s' ∪ remaining s' = allViews
  ∧ reconstructed s ⊆ reconstructed s'
  ∧ remaining s' ⊆ remaining s
  ∧ reconstructed s' ∖ reconstructed s = remaining s ∖ remaining s'.
Proof.
  intros Hpart s'. subst s'.
  assert (partitions allViews (stateAfter c pol e d n s)
          ∧ reconstructed s ⊆ reconstructed (stateAfter c pol e d n s)
          ∧ remaining (stateAfter c pol e d n s) ⊆ remaining s)
    as ([Hdisj' Hunion'] & Hrec & Hrem).
  { apply (stateAfter_invariant c pol e d
             (λ s', partitions allViews s' ∧ reconstructed s ⊆ reconstructed s'
                    ∧ remaining s' ⊆ remaining s)); [|done].
    intros s1 (Hp & Hr1 & Hr2).
    destruct (growRound_partition c pol e d allViews s1 Hp) as (? & ? & ?).
    split; [done|]. split; by etrans. }
  destruct Hpart as [Hdisj Hunion].
  split; [done|]. split; [done|]. split; [done|]. split; [done|].
  apply set_eq. intros x.
  destruct (decide (x ∈ reconstructed s));
    destruct (decide (x ∈ remaining (stateAfter c pol e d n s))); set_solver.
Qed.





End LoopFacts.

(** ** The loop on a concrete scene *)

Module LoopExamples.
Import Examples.

Lemma seeded_partitions round :
  partitions {[0%nat; 1%nat; 2%nat; 3%nat; 4%nat]} (seeded round).
Proof. split; by vm_compute. Qed.




(** View 3 shares 30 tracks and view 2 shares 10; view 4 shares none and
    is not ranked. *)
Example seeded_ranking :
  Ranker.FindConnectedViews engine3 fortyTracks {[0%nat; 1%nat]}
    {[2%nat; 3%nat; 4%nat]}
  = (true, [(3%nat, 30%nat, 867, true); (2%nat, 10%nat, 303, true)]).
Proof. by vm_compute. Qed.

(** With a pose solver that never fails the loop resects view 3, finds
    no batch twice and is done after three rounds. *)
Example seeded_run :
  (λ s, (reconstructed s, remaining s))
    <$> growLoop (solvers (λ _, true)) policy engine3 fortyTracks 3 (seeded 0)
  = Some ({[0%nat; 1%nat; 3%nat]}, {[2%nat; 4%nat]}).
Proof. by vm_compute. Qed.

Example removals :
  (removeOutliers (solvers (λ _, true)) (inject_Z 4) sceneWithOutlier).2 = 1%nat
  ∧ (removeOutliers (solvers (λ _, true)) (inject_Z 4) sceneWithTwoOutliers).2
    = 2%nat
  ∧ (badTrackRejector (solvers (λ _, true)) (inject_Z 4) 0 sceneWithOutlier).1
    = true
  ∧ (badTrackRejector (solvers (λ _, true)) (inject_Z 4) 0
       sceneWithTwoOutliers).1 = true.
Proof. by vm_compute. Qed.

Lemma partition_invariant_witness :
  let s' := stateAfter (solvers (λ _, true)) policy engine3 fortyTracks 3
              (seeded 0) in
  reconstructed s' ∩ remaining s' = ∅
  ∧ reconstructed s' ∪ remaining s' = {[0%nat; 1%nat; 2%nat; 3%nat; 4%nat]}
  ∧ reconstructed (seeded 0) ⊆ reconstructed s'
  ∧ remaining s' ⊆ remaining (seeded 0)
  ∧ reconstructed s' ∖ reconstructed (seeded 0)
    = remaining (seeded 0) ∖ remaining s'.
Proof.
  apply (partition_invariant (solvers (λ _, true)) policy engine3 fortyTracks
           {[0%nat; 1%nat; 2%nat; 3%nat; 4%nat]} (seeded 0) 3).
  apply seeded_partitions.
Defined.









End LoopExamples.

(** ** Sequences of setter calls *)

Module MembersFacts.
Import Engine Members.

(** One call: the targeted member takes the argument, every other member
    keeps its value. *)
Lemma readMember_call (m : Member) (c : Setter) (e : t) :
  readMember m (call c e) = default (readMember m e) (assigned m c).
Proof. by destruct m, c. Qed.

Lemma assigned_target (m : Member) (c : Setter) :
  is_Some (assigned m c) ↔ target c = m.
Proof.
  destruct m, c; simpl; split; intros H;
    solve [done | by eexists | by destruct H].
Qed.

Lemma lastAssigned_snoc (m : Member) (cs : list Setter) (c : Setter) :
  lastAssigned m (cs ++ [c])
  = match assigned m c with Some v => Some v | None => lastAssigned m cs end.
Proof. unfold lastAssigned. by rewrite foldl_app. Qed.

Lemma lastAssigned_None (m : Member) (cs : list Setter) :
  Forall (λ c, target c ≠ m) cs → lastAssigned m cs = None.
Proof.
  induction cs as [|c cs IH] using rev_ind; intros Hall; [done|].
  apply Forall_app in Hall as [Hcs Hc]. rewrite Forall_singleton in Hc.
  rewrite lastAssigned_snoc.
  destruct (assigned m c) as [v|] eqn:Hv; [|by apply IH].
  exfalso. apply Hc. apply assigned_target. by rewrite Hv.
Qed.

(** Two engines with the same members are the same engine. *)
Lemma engine_ext (e1 e2 : t) :
  (∀ m, readMember m e1 = readMember m e2) → e1 = e2.
Proof.
  intros H. destruct e1, e2.
  pose proof (H M_sLoggingFile). pose proof (H M_sfmdataInterFileExtension).
  pose proof (H M_sfmdataInterFilter). pose proof (H M_userInteraction).
  pose proof (H M_userInitialImagePair). pose proof (H M_camType).
  pose proof (H M_minInputTrackLength). pose proof (H M_minTrackLength).
  pose proof (H M_minPointsPerPose). pose proof (H M_featuresPerView).
  pose proof (H M_pairwiseMatches). pose proof (H M_pyramidBase).
  pose proof (H M_pyramidDepth). pose proof (H M_pyramidWeights).
  pose proof (H M_pyramidThreshold). simpl in *. by subst.
Qed.

(** X1: after any sequence of setter calls, every data member holds the
    argument of the last call that assigns it, or its former value when
    no call of the sequence assigns it. *)
Theorem last_call_wins (m : Member) (cs : list Setter) (e : t) :
  readMember m (foldl (flip call) e cs)
  = default (readMember m e) (lastAssigned m cs).
Proof.
  induction cs as [|c cs IH] using rev_ind; [done|].
  rewrite foldl_app. simpl.
  change (flip call (foldl (flip call) e cs) c)
    with (call c (foldl (flip call) e cs)).
  rewrite readMember_call, lastAssigned_snoc, IH.
  by destruct (assigned m c).
Qed.

(** X2: two setter calls that assign different members commute. *)
Theorem setters_commute (c1 c2 : Setter) (e : t) :
  target c1 ≠ target c2 → call c1 (call c2 e) = call c2 (call c1 e).
Proof. destruct c1, c2; simpl; intros H; done. Qed.

Lemma setters_commute_witness :
  call (CallSetMinTrackLength 3) (call (CallSetMinInputTrackLength 4) Examples.engine3)
  = call (CallSetMinInputTrackLength 4) (call (CallSetMinTrackLength 3) Examples.engine3).
Proof. apply setters_commute. done. Defined.

(** X3: of two calls of the same setter, the second overwrites the
    first. *)
Theorem second_call_overwrites (c1 c2 : Setter) (e : t) :
  target c1 = target c2 → call c2 (call c1 e) = call c2 e.
Proof. destruct c1, c2; simpl; intros H; done. Qed.

Lemma second_call_overwrites_witness :
  call (CallSetSfmdataInterFileExtension ".abc")
       (call (CallSetSfmdataInterFileExtension ".json") Examples.engine3)
  = call (CallSetSfmdataInterFileExtension ".abc") Examples.engine3.
Proof. apply second_call_overwrites. done. Defined.

(** X4: the order of a sequence of setter calls does not matter when no
    two of them assign the same member. *)
Theorem call_order_irrelevant (cs cs' : list Setter) (e : t) :
  cs ≡ₚ cs' → NoDup (target <$> cs) →
  foldl (flip call) e cs = foldl (flip call) e cs'.
Proof.
  intros Hperm. revert e.
  induction Hperm as [|c cs cs' Hperm IH|c1 c2 cs|cs1 cs2 cs3 H12 IH12 H23 IH23];
    intros e Hnd.
  - done.
  - simpl. apply IH. rewrite fmap_cons in Hnd. by apply NoDup_cons in Hnd as [_ ?].
  - simpl. f_equal. unfold flip. apply setters_commute.
    rewrite !fmap_cons in Hnd. apply NoDup_cons in Hnd as [Hnotin _].
    intros Heq. apply Hnotin. rewrite <- Heq. left.
  - rewrite IH12 by done. apply IH23. by rewrite <- H12.
Qed.

Lemma call_order_irrelevant_witness :
  foldl (flip call) Examples.engine3
    [CallSetMinTrackLength 3; CallSetAllowUserInteraction false;
     CallSetInitialPair (4, 7)%nat]
  = foldl (flip call) Examples.engine3
      [CallSetInitialPair (4, 7)%nat; CallSetMinTrackLength 3;
       CallSetAllowUserInteraction false].
Proof.
  apply call_order_irrelevant.
  - symmetry. apply (Permutation_cons_append [_; _]).
  - simpl. repeat (apply NoDup_cons; split; [set_solver|]). apply NoDup_nil_2.
Defined.



(** X6: the settable members are set freely and independently: eight
    setter calls turn an engine into any engine that has the same
    members without a setter. *)
Theorem settable_members_reachable (e1 e2 : t) :
  (∀ m, memberHasSetter m = false → readMember m e1 = readMember m e2) →
  foldl (flip call) e1 (settersOf e2) = e2.
Proof.
  intros Hfixed. apply engine_ext. intros m. rewrite last_call_wins.
  destruct (memberHasSetter m) eqn:Hm.
  - by destruct m.
  - rewrite <- (Hfixed m Hm). by destruct m.
Qed.

Lemma settable_members_reachable_witness :
  foldl (flip call) Examples.engine3
    (settersOf (call (CallSetMinTrackLength 7)
                  (call (CallSetInitialPair (2, 5)%nat) Examples.engine3)))
  = call (CallSetMinTrackLength 7)
      (call (CallSetInitialPair (2, 5)%nat) Examples.engine3).
Proof. apply settable_members_reachable. by intros []. Defined.

(** X7: configuring an engine twice with the same sequence of setter
    calls is the same as configuring it once. *)
Theorem configuring_twice (cs : list Setter) (e : t) :
  foldl (flip call) (foldl (flip call) e cs) cs = foldl (flip call) e cs.
Proof.
  apply engine_ext. intros m. rewrite !last_call_wins.
  by destruct (lastAssigned m cs).
Qed.

Lemma target_has_setter (c : Setter) : memberHasSetter (target c) = true.
Proof. by destruct c. Qed.

(** X8: no sequence of setter calls changes a member that has no setter:
    the logging file, the snapshot scene fields, the minimum number of
    points per pose and the pyramid base, depth, weights and threshold
    are out of reach of the configuration interface. *)
Theorem members_without_setter_kept (m : Member) (cs : list Setter) (e : t) :
  memberHasSetter m = false →
  readMember m (foldl (flip call) e cs) = readMember m e.
Proof.
  intros Hm. rewrite last_call_wins, lastAssigned_None; [done|].
  apply Forall_forall. intros c _ Heq.
  pose proof (target_has_setter c) as Hc. rewrite Heq in Hc. congruence.
Qed.

Lemma members_without_setter_kept_witness :
  readMember M_pyramidWeights
    (foldl (flip call) Examples.engine3
           [CallSetMinTrackLength 3; CallSetFeatures 8%nat;
            CallSetUnknownCameraType 2])
  = [1; 2; 4; 8; 16].
Proof.
  exact (members_without_setter_kept M_pyramidWeights
           [CallSetMinTrackLength 3; CallSetFeatures 8%nat;
            CallSetUnknownCameraType 2] Examples.engine3 eq_refl).
Defined.

End MembersFacts.
